(** * Verification of the nvim-oxi top-level Lua bridge

    Shallow embedding of [src/nvim-oxi/src/toplevel/toplevel.rs]: the
    functions [print], [schedule] and the macro [nprint!], which drive the
    embedded Lua interpreter through its C API.

    The interpreter is modelled as an explicit state ([lua_State]) threaded
    through a small state-and-exception monad ([LuaM]).  A Lua error raised
    by an unprotected [lua_call] is a non-local exit (a longjmp in the C
    implementation): every instruction after the raising one is skipped, which
    the monad models with its [Raised] outcome.  The state also carries a log
    of the C API calls the bridge performs, so that statements about the exact
    sequence of interactions can be made. *)

From Stdlib Require Import String Ascii List ZArith Bool Lia.
Import ListNotations.
Open Scope string_scope.
Open Scope list_scope.
Set Warnings "-register-all".

Module Lua.

(** ** Values *)

(** Functions the interpreter can call.  [FPrint] is the host's global
    [print] (writes its arguments to the Neovim message area), [FSchedule] is
    Neovim's [vim.schedule] ([nlua_schedule] in executor.c: checks that its
    argument is a function and appends it to the event-loop queue),
    [FRaise msg] is any Lua function whose body raises [msg], and [FOnce id]
    is the native one-shot closure number [id] wrapped by [once_to_luaref]
    (its run is recorded, its body is not modelled). *)
Inductive func : Type :=
| FPrint
| FSchedule
| FRaise (msg : string)
| FOnce (id : nat).

(** Lua values used by the bridge.  Numbers are integral (the registry's
    free list stores integers); tables are string-keyed field lists and
    carry no metatable. *)
Inductive value : Type :=
| VNil
| VNum (n : Z)
| VStr (s : string)
| VTable (fields : list (string * value))
| VFun (f : func).

(** [lua_typename] of a value. *)
Definition typename (v : value) : string :=
  match v with
  | VNil => "nil"
  | VNum _ => "number"
  | VStr _ => "string"
  | VTable _ => "table"
  | VFun _ => "function"
  end.

(** One entry per C API call performed, with the values it moved. *)
Inductive event : Type :=
| EvGetGlobal (name : string) (pushed : value)
| EvGetField (idx : Z) (k : string) (pushed : value)
| EvPushString (s : string)
| EvPushClosure (id : nat)
| EvRawGetI (idx : Z) (n : Z) (pushed : value)
| EvCall (nargs nresults : nat) (fn : value) (args : list value)
| EvPop (n : nat) (popped : list value)
| EvRef (t : Z) (r : Z) (stored : value)
| EvUnref (t : Z) (r : Z).

(** ** Interpreter state *)

(** [stack] lists the value stack with its top first; [string_lib] holds the
    fields of the table the string metatable's [__index] points to (the
    string library); [registry] is the integer-keyed part of the registry
    table, key 0 holding the head of [luaL_ref]'s free list; [messages] is
    the Neovim message area; [queue] the callbacks [vim.schedule] has queued
    on the event loop; [invoked] the native closures that have run, in
    order. *)
Record lua_State : Type := mkState {
  stack : list value;
  globals : list (string * value);
  string_lib : list (string * value);
  registry : list (Z * value);
  trace : list event;
  messages : list string;
  queue : list value;
  invoked : list nat
}.

Definition with_stack (st : list value) (s : lua_State) : lua_State :=
  mkState st (globals s) (string_lib s) (registry s) (trace s) (messages s)
    (queue s) (invoked s).

Definition with_registry (rg : list (Z * value)) (s : lua_State) : lua_State :=
  mkState (stack s) (globals s) (string_lib s) rg (trace s) (messages s)
    (queue s) (invoked s).

Definition with_trace (tr : list event) (s : lua_State) : lua_State :=
  mkState (stack s) (globals s) (string_lib s) (registry s) tr (messages s)
    (queue s) (invoked s).

Definition with_messages (ms : list string) (s : lua_State) : lua_State :=
  mkState (stack s) (globals s) (string_lib s) (registry s) (trace s) ms
    (queue s) (invoked s).

Definition with_queue (q : list value) (s : lua_State) : lua_State :=
  mkState (stack s) (globals s) (string_lib s) (registry s) (trace s)
    (messages s) q (invoked s).

Definition with_invoked (iv : list nat) (s : lua_State) : lua_State :=
  mkState (stack s) (globals s) (string_lib s) (registry s) (trace s)
    (messages s) (queue s) iv.

(** ** The interpreter monad *)

Inductive outcome (A : Type) : Type :=
| Done (a : A) (s : lua_State)
| Raised (err : value) (s : lua_State).
Arguments Done {A} a s.
Arguments Raised {A} err s.

Definition LuaM (A : Type) : Type := lua_State -> outcome A.

Definition ret {A} (a : A) : LuaM A := fun s => Done a s.

Definition bind {A B} (m : LuaM A) (k : A -> LuaM B) : LuaM B :=
  fun s => match m s with
           | Done a s' => k a s'
           | Raised e s' => Raised e s'
           end.

Definition raise {A} (e : value) : LuaM A := fun s => Raised e s.
Definition get : LuaM lua_State := fun s => Done s s.
Definition put (s : lua_State) : LuaM unit := fun _ => Done tt s.
Definition modify (f : lua_State -> lua_State) : LuaM unit :=
  fun s => Done tt (f s).

Notation "x <- c1 ;; c2" := (bind c1 (fun x => c2))
  (at level 100, c1 at next level, right associativity).
Notation "c1 ;; c2" := (bind c1 (fun _ => c2))
  (at level 100, right associativity).

(** The state an outcome ends in, whether it returned or raised. *)
Definition final_state {A} (o : outcome A) : lua_State :=
  match o with Done _ s => s | Raised _ s => s end.

Definition log (ev : event) : LuaM unit :=
  modify (fun s => with_trace (trace s ++ [ev]) s).

Definition push (v : value) : LuaM unit :=
  modify (fun s => with_stack (v :: stack s) s).

(** ** Lookups *)

Fixpoint field (fs : list (string * value)) (k : string) : value :=
  match fs with
  | [] => VNil
  | (k', v) :: rest => if String.eqb k' k then v else field rest k
  end.

Fixpoint reg_value (n : Z) (rg : list (Z * value)) : value :=
  match rg with
  | [] => VNil
  | (k, v) :: rest => if Z.eqb k n then v else reg_value n rest
  end.

Definition reg_remove (r : Z) (rg : list (Z * value)) : list (Z * value) :=
  filter (fun p => negb (Z.eqb (fst p) r)) rg.

(** Raw assignment [t[k] = v]; assigning [nil] removes the key. *)
Definition reg_set (k : Z) (v : value) (rg : list (Z * value))
  : list (Z * value) :=
  match v with
  | VNil => reg_remove k rg
  | _ => (k, v) :: reg_remove k rg
  end.

(** Acceptable stack index: negative indices count from the top ([-1] is
    the top), positive ones from the bottom. *)
Definition stack_index (idx : Z) (st : list value) : option value :=
  if (idx <? 0)%Z then nth_error st (Z.to_nat (- idx - 1))
  else if (idx =? 0)%Z then None
  else nth_error (rev st) (Z.to_nat (idx - 1)).

(** Decimal rendering of an integer, as [tostring] prints it. *)
Fixpoint digits (fuel : nat) (n : Z) (acc : string) : string :=
  match fuel with
  | O => acc
  | S f =>
      let c := ascii_of_nat (48 + Z.to_nat (Z.modulo n 10)) in
      let q := Z.div n 10 in
      if (q =? 0)%Z then String c acc else digits f q (String c acc)
  end.

Definition z_to_string (z : Z) : string :=
  let fuel := S (Z.to_nat (Z.log2 (Z.abs z))) in
  if (z <? 0)%Z then "-" ++ digits fuel (- z) EmptyString
  else digits fuel z EmptyString.

(** ** The Lua C API used by the bridge *)

(** [LUA_REGISTRYINDEX] of Lua 5.1 / LuaJIT, [LUA_REFNIL], and lauxlib's
    [FREELIST_REF]. *)
Definition LUA_REGISTRYINDEX : Z := (-10000)%Z.
Definition LUA_REFNIL : Z := (-1)%Z.
Definition FREELIST_REF : Z := 0%Z.

(** [lua_tointeger]: numbers convert, other values give 0 (strings holding a
    numeral, which Lua would convert, are not modelled). *)
Definition lua_tointeger (v : value) : Z :=
  match v with VNum z => z | _ => 0%Z end.

(** [lua_objlen] of a table returns one of its borders ([n] with [t[n]]
    non-nil, or [n = 0], and [t[n+1]] nil); the model returns the smallest
    one, scanning from 1. *)
Fixpoint border_from (fuel : nat) (n : Z) (rg : list (Z * value)) : Z :=
  match fuel with
  | O => n
  | S f =>
      match reg_value (n + 1) rg with
      | VNil => n
      | _ => border_from f (n + 1) rg
      end
  end.

Definition lua_objlen (rg : list (Z * value)) : Z :=
  border_from (length rg) 0 rg.

(** [lua_getglobal]: pushes the value of a global ([nil] when unset). *)
Definition lua_getglobal (name : string) : LuaM unit :=
  s <- get ;;
  let v := field (globals s) name in
  push v ;;
  log (EvGetGlobal name v).

(** [lua_getfield]: pushes [t[k]] for the value [t] at [idx].  A string is
    indexed through the string metatable, whose [__index] is the string
    library; nil, numbers and functions have no metatable, so indexing them
    raises. *)
Definition lua_getfield (idx : Z) (k : string) : LuaM unit :=
  s <- get ;;
  match stack_index idx (stack s) with
  | Some (VTable fs) =>
      let v := field fs k in
      push v ;;
      log (EvGetField idx k v)
  | Some (VStr _) =>
      let v := field (string_lib s) k in
      push v ;;
      log (EvGetField idx k v)
  | Some v => raise (VStr ("attempt to index a " ++ typename v ++ " value"))
  | None => raise (VStr "invalid stack index")
  end.

(** [lua_pushstring]: pushes the bytes of a C string. *)
Definition lua_pushstring (p : string) : LuaM unit :=
  push (VStr p) ;;
  log (EvPushString p).

(** [lua_rawgeti]: pushes [t[n]] without metamethods; the tables of this
    model have string keys only, so outside the registry the result is
    [nil]. *)
Definition lua_rawgeti (idx : Z) (n : Z) : LuaM unit :=
  s <- get ;;
  if (idx =? LUA_REGISTRYINDEX)%Z then
    let v := reg_value n (registry s) in
    push v ;;
    log (EvRawGetI idx n v)
  else
    match stack_index idx (stack s) with
    | Some (VTable _) => push VNil ;; log (EvRawGetI idx n VNil)
    | _ => raise (VStr "attempt to index a non-table value")
    end.

(** [tostring] as used by [print]: tables and functions print their address
    in Lua; the model abbreviates them to their type name. *)
Definition tostring (v : value) : string :=
  match v with
  | VNil => "nil"
  | VNum z => z_to_string z
  | VStr s => s
  | VTable _ => "table"
  | VFun _ => "function"
  end.

Definition tab : string := String (ascii_of_nat 9) EmptyString.

(** Running a callee on its arguments; it returns its results or raises.
    Calling a value that is not a function raises.  The callees form a
    closed set: none of them writes the globals, the stack or the registry
    ([nlua_schedule]'s own registry reference to the callback is not
    modelled), and [FOnce] records its run without executing the closure's
    body. *)
Definition call_value (f : value) (args : list value) : LuaM (list value) :=
  match f with
  | VFun FPrint =>
      s <- get ;;
      put (with_messages (messages s ++ [String.concat tab (map tostring args)]) s) ;;
      ret []
  | VFun FSchedule =>
      match args with
      | (VFun _ as cb) :: _ =>
          s <- get ;;
          put (with_queue (queue s ++ [cb]) s) ;;
          ret []
      | _ => raise (VStr "vim.schedule: expected function")
      end
  | VFun (FRaise msg) => raise (VStr msg)
  | VFun (FOnce id) =>
      s <- get ;;
      if existsb (Nat.eqb id) (invoked s)
      then raise (VStr "once closure called twice")
      else put (with_invoked (invoked s ++ [id]) s) ;; ret []
  | v => raise (VStr ("attempt to call a " ++ typename v ++ " value"))
  end.

(** Results adjusted to the number the caller expects. *)
Definition adjust (n : nat) (rs : list value) : list value :=
  firstn n rs ++ repeat VNil (n - length rs).

Definition push_results (rs : list value) : LuaM unit :=
  modify (fun s => with_stack (rev rs ++ stack s) s).

(** [lua_call]: the function sits below its [nargs] arguments; the callee
    runs with them in place (they form the base of its frame), and only when
    it returns are they removed and its results pushed.  An error raised by
    the callee, or by calling a non-function, propagates (the call is
    unprotected) with the function and its arguments still on the stack. *)
Definition lua_call (nargs nresults : nat) : LuaM unit :=
  s <- get ;;
  match nth_error (stack s) nargs with
  | None => raise (VStr "stack underflow")
  | Some f =>
      let args := rev (firstn nargs (stack s)) in
      log (EvCall nargs nresults f args) ;;
      results <- call_value f args ;;
      s' <- get ;;
      put (with_stack (skipn (S nargs) (stack s')) s') ;;
      push_results (adjust nresults results)
  end.

(** [lua_pop]: removes [n] values from the top. *)
Definition lua_pop (n : nat) : LuaM unit :=
  s <- get ;;
  put (with_stack (skipn n (stack s)) s) ;;
  log (EvPop n (firstn n (stack s))).

(** The key [luaL_ref] hands out and the table after unlinking it from the
    free list: the free-list head [t[FREELIST_REF]] when it is non-zero
    (then [t[FREELIST_REF] = t[ref]]), else [lua_objlen(t) + 1]. *)
Definition ref_slot (rg : list (Z * value)) : Z * list (Z * value) :=
  let ref := lua_tointeger (reg_value FREELIST_REF rg) in
  if (ref =? 0)%Z then ((lua_objlen rg + 1)%Z, rg)
  else (ref, reg_set FREELIST_REF (reg_value ref rg) rg).

(** The key the next [luaL_ref] on the registry hands out. *)
Definition next_ref (s : lua_State) : Z := fst (ref_slot (registry s)).

(** [luaL_ref] (lauxlib.c) on the registry: pops the top value and stores it
    under the key [ref_slot] chooses, returning the key; [nil] is popped,
    not stored, and yields [LUA_REFNIL]. *)
Definition luaL_ref (t : Z) : LuaM Z :=
  s <- get ;;
  match stack s with
  | [] => raise (VStr "stack underflow")
  | VNil :: rest =>
      put (with_stack rest s) ;;
      log (EvRef t LUA_REFNIL VNil) ;;
      ret LUA_REFNIL
  | v :: rest =>
      let (ref, rg) := ref_slot (registry s) in
      put (with_registry (reg_set ref v rg) (with_stack rest s)) ;;
      log (EvRef t ref v) ;;
      ret ref
  end.

(** [luaL_unref] (lauxlib.c) on the registry: for [ref >= 0],
    [t[ref] = t[FREELIST_REF]] then [t[FREELIST_REF] = ref], putting [ref]
    at the head of the free list. *)
Definition luaL_unref (t : Z) (ref : Z) : LuaM unit :=
  log (EvUnref t ref) ;;
  if (0 <=? ref)%Z then
    modify (fun s =>
      let rg := registry s in
      with_registry
        (reg_set FREELIST_REF (VNum ref)
           (reg_set ref (reg_value FREELIST_REF rg) rg)) s)
  else ret tt.

(** ** Helpers of the [lua] module of the crate *)

(** Modelled from the spec: [lua::with_state], not under src/.  It gives the
    closure exclusive access to the single interpreter state for the duration
    of one operation and runs it there. *)
Definition with_state {A} (f : LuaM A) : LuaM A := f.

(** Modelled from the spec: [lua::once_to_luaref], not under src/.  It
    registers the native one-shot closure [fun] in the registry, obtaining a
    registry handle; registration does not invoke the closure.  The closure
    is pushed as a function value and stored with [luaL_ref]. *)
Definition once_to_luaref (fun_ : nat) : LuaM Z :=
  push (VFun (FOnce fun_)) ;;
  log (EvPushClosure fun_) ;;
  luaL_ref LUA_REGISTRYINDEX.

(** ** Rust-side types *)

(** [core::result::Result]. *)
Inductive result (T E : Type) : Type :=
| Ok (t : T)
| Err (e : E).
Arguments Ok {T E} t.
Arguments Err {T E} e.

(** A Rust [String] as its bytes, one [ascii] per byte; [zero] is the byte
    0x00. *)
Definition has_nul (text : string) : Prop := In zero (list_ascii_of_string text).

(** [std::ffi::CString]: owned bytes without an interior nul. *)
Record CString : Type := mkCString { cstring_bytes : string }.

(** [std::ffi::NulError]: the position of the first nul and the bytes. *)
Record NulError : Type := mkNulError { nul_position : nat; nul_bytes : string }.

(** [memchr(0, bytes)] as used by [CString::new]. *)
Fixpoint find_nul (text : string) : option nat :=
  match text with
  | EmptyString => None
  | String c rest =>
      if Ascii.eqb c zero then Some 0 else option_map S (find_nul rest)
  end.

(** [CString::new]: fails with a [NulError] when the bytes contain 0x00. *)
Definition cstring_new (text : string) : result CString NulError :=
  match find_nul text with
  | Some i => Err (mkNulError i text)
  | None => Ok (mkCString text)
  end.

(** Modelled from the spec: [crate::Error] and its [From<NulError>]
    conversion used by [?], not under src/.  The spec names the null-byte
    failure [ErrorKind::InvalidArgument]. *)
Inductive Error : Type :=
| InvalidArgument (e : NulError).

(** ** toplevel.rs *)

(** [print] (lines 24-34). *)
Definition print (text : string) : LuaM (result unit Error) :=
  match cstring_new text with
  | Err e => ret (Err (InvalidArgument e))
  | Ok text =>
      with_state (
        lua_getglobal "print" ;;
        lua_pushstring (cstring_bytes text) ;;
        lua_call 1 0) ;;
      ret (Ok tt)
  end.

(** The [nprint!] macro (lines 13-17) on its already formatted text:
    [let _ = crate::print(..)]. *)
Definition nprint (formatted : string) : LuaM unit :=
  _ <- print formatted ;;
  ret tt.

(** [schedule] (lines 40-64); the native closure [fun] is named by its
    number. *)
Definition schedule (fun_ : nat) : LuaM unit :=
  with_state (
    lua_getglobal "vim" ;;
    lua_getfield (-1) "schedule" ;;
    luaref <- once_to_luaref fun_ ;;
    lua_rawgeti LUA_REGISTRYINDEX luaref ;;
    lua_call 1 0 ;;
    lua_pop 1 ;;
    luaL_unref LUA_REGISTRYINDEX luaref).

End Lua.

Import Lua.

(** ** Observations used by the statements *)

(** Number of releases of registry key [r] in a log. *)
Fixpoint unref_count (r : Z) (tr : list event) : nat :=
  match tr with
  | [] => 0
  | EvUnref _ r' :: rest =>
      (if Z.eqb r' r then 1 else 0) + unref_count r rest
  | _ :: rest => unref_count r rest
  end.

(** The interactions [print] is expected to have with the interpreter, for
    the value [pv] of the global [print]. *)
Definition print_protocol (text : string) (pv : value) : list event :=
  [EvGetGlobal "print" pv; EvPushString text; EvCall 1 0 pv [VStr text]].

(** The value [lua_getfield(-1, "schedule")] finds on the [vim] global,
    when indexing it does not raise: a field of a table, or of the string
    library for a string. *)
Definition schedule_field (s : lua_State) : option value :=
  match field (globals s) "vim" with
  | VTable fs => Some (field fs "schedule")
  | VStr _ => Some (field (string_lib s) "schedule")
  | _ => None
  end.

(** The interactions [schedule c] is expected to have, in order, starting
    from state [s]: push [vim], push [vim.schedule], register the closure
    and push its reference, call, pop [vim], release the reference. *)
Definition schedule_protocol (c : nat) (s : lua_State) : list event :=
  let vimv := field (globals s) "vim" in
  let schedv := match schedule_field s with Some v => v | None => VNil end in
  let r := next_ref s in
  [EvGetGlobal "vim" vimv;
   EvGetField (-1) "schedule" schedv;
   EvPushClosure c;
   EvRef LUA_REGISTRYINDEX r (VFun (FOnce c));
   EvRawGetI LUA_REGISTRYINDEX r (VFun (FOnce c));
   EvCall 1 0 schedv [VFun (FOnce c)];
   EvPop 1 [vimv];
   EvUnref LUA_REGISTRYINDEX r].

(** What [schedule] does once the deferral call has returned in state
    [s']: the call removes its function and argument, [vim] is popped and
    the handle [r] released. *)
Definition schedule_tail (r : Z) (s' : lua_State) : lua_State :=
  final_state
    ((s1 <- get ;;
      put (with_stack (skipn 2 (stack s1)) s1) ;;
      push_results [] ;;
      lua_pop 1 ;;
      luaL_unref LUA_REGISTRYINDEX r) s').

(** A state whose [vim] global is a table without a [schedule] field, and
    with no [print] global. *)
Definition s_no_schedule : lua_State :=
  mkState [] [("vim", VTable [])] [] [] [] [] [] [].

(** A host state: Neovim's [print] and [vim.schedule], one value on the
    stack. *)
Definition s_host : lua_State :=
  mkState [VStr "below"]
    [("print", VFun FPrint); ("vim", VTable [("schedule", VFun FSchedule)])]
    [] [] [] [] [] [].

(** ** Helper lemmas *)

Lemma find_nul_some (t : string) (n : nat) : find_nul t = Some n -> has_nul t.
Proof.
  unfold has_nul; revert n; induction t as [|c r IH]; cbn; intros n H.
  - discriminate.
  - destruct (Ascii.eqb_spec c zero) as [->|Hne]; [left; reflexivity|].
    destruct (find_nul r) as [m|] eqn:E; cbn in H; [|discriminate].
    right; exact (IH m eq_refl).
Qed.

Lemma find_nul_none (t : string) : find_nul t = None -> ~ has_nul t.
Proof.
  unfold has_nul; induction t as [|c r IH]; cbn; intros H.
  - intros [].
  - destruct (Ascii.eqb_spec c zero) as [->|Hne]; [discriminate|].
    destruct (find_nul r) eqn:E; cbn in H; [discriminate|].
    intros [Heq|Hin]; [congruence|exact (IH eq_refl Hin)].
Qed.

Lemma find_nul_none_iff (t : string) : find_nul t = None <-> ~ has_nul t.
Proof.
  split; [apply find_nul_none|].
  destruct (find_nul t) eqn:E; [|reflexivity].
  intros H; exfalso; exact (H (find_nul_some t n E)).
Qed.

(** [print] on a text with no nul byte runs the interpreter block. *)
Lemma print_no_nul (t : string) (s : lua_State) :
  ~ has_nul t ->
  print t s =
    (lua_getglobal "print" ;; lua_pushstring t ;; lua_call 1 0 ;;
     ret (Ok tt)) s.
Proof.
  intros H. apply find_nul_none_iff in H.
  unfold print, cstring_new. rewrite H. reflexivity.
Qed.

(** [print] on a text with a nul byte returns the error at once. *)
Lemma print_nul (t : string) (s : lua_State) :
  has_nul t -> exists e, print t s = Done (Err (InvalidArgument e)) s.
Proof.
  intros H. unfold print, cstring_new.
  destruct (find_nul t) as [i|] eqn:E.
  - exists (mkNulError i t). reflexivity.
  - exfalso. exact (find_nul_none t E H).
Qed.

Ltac callee_cases f args :=
  destruct f as [|n|str|fs|[| |msg|id]]; cbn;
  [..|destruct args as [|[|n|str|fs|g] rest]; cbn
     |
     |destruct (existsb _ _); cbn].

(** Running a callee touches neither the log, the stack, the globals, the
    string library nor the registry. *)
Lemma call_value_frame (f : value) (args : list value) (s : lua_State) :
  let s' := final_state (call_value f args s) in
  trace s' = trace s /\ stack s' = stack s /\ globals s' = globals s /\
  string_lib s' = string_lib s /\ registry s' = registry s.
Proof. callee_cases f args; repeat split. Qed.

(** [print] reaches the call of the global [print] on the pushed text, in
    the state [st]; what follows the call runs only if the callee returns. *)
Lemma print_call (t : string) (s : lua_State) :
  ~ has_nul t ->
  let pv := field (globals s) "print" in
  exists st,
    print t s =
      match call_value pv [VStr t] st with
      | Done _ s' => Done (Ok tt) (with_stack (skipn 2 (stack s')) s')
      | Raised e s' => Raised e s'
      end /\
    stack st = VStr t :: pv :: stack s /\
    trace st = trace s ++ print_protocol t pv /\
    globals st = globals s /\ string_lib st = string_lib s /\
    registry st = registry s /\ messages st = messages s /\
    queue st = queue s /\ invoked st = invoked s.
Proof.
  intros Hnul pv. rewrite (print_no_nul t s Hnul).
  exists (mkState (VStr t :: pv :: stack s) (globals s) (string_lib s)
            (registry s) (trace s ++ print_protocol t pv) (messages s)
            (queue s) (invoked s)).
  split; [|repeat split].
  unfold lua_getglobal, lua_pushstring, lua_call, push, log, push_results;
  unfold bind, modify, get, put, ret; cbn.
  rewrite <- !app_assoc; cbn.
  destruct (call_value _ _ _); reflexivity.
Qed.

(** With the host's [print], [print] on a text with no nul byte emits the
    text and leaves the stack, the registry and the globals as they were. *)
Lemma print_host (t : string) (s : lua_State) :
  ~ has_nul t ->
  field (globals s) "print" = VFun FPrint ->
  exists s',
    print t s = Done (Ok tt) s' /\
    stack s' = stack s /\
    trace s' = trace s ++ print_protocol t (VFun FPrint) /\
    messages s' = messages s ++ [t] /\
    registry s' = registry s /\ queue s' = queue s /\ invoked s' = invoked s /\
    globals s' = globals s.
Proof.
  intros Hnul Hp. pose proof (print_call t s Hnul) as H. cbv zeta in H.
  rewrite Hp in H.
  destruct H as (st & -> & Hs & Ht & Hg & _ & Hr & Hm & Hq & Hi).
  cbn. eexists; split; [reflexivity|]. cbn.
  rewrite Hs, Ht, Hg, Hr, Hm, Hq, Hi. repeat split.
Qed.

(** [schedule] reaches the deferral call in the state [st] whenever
    indexing [vim] does not raise: the callee runs on the closure's
    reference, with the callee, the reference and [vim] on the stack and the
    closure registered under [next_ref s]; what follows the call runs only
    if the callee returns. *)
Lemma schedule_call (c : nat) (s : lua_State) (v : value) :
  schedule_field s = Some v ->
  exists st,
    schedule c s =
      match call_value v [VFun (FOnce c)] st with
      | Done _ s' => Done tt (schedule_tail (next_ref s) s')
      | Raised e s' => Raised e s'
      end /\
    stack st = VFun (FOnce c) :: v :: field (globals s) "vim" :: stack s /\
    trace st = trace s ++ firstn 6 (schedule_protocol c s) /\
    registry st =
      reg_set (next_ref s) (VFun (FOnce c)) (snd (ref_slot (registry s))) /\
    globals st = globals s /\ string_lib st = string_lib s /\
    messages st = messages s /\ queue st = queue s /\ invoked st = invoked s.
Proof.
  intros Hv.
  exists (mkState (VFun (FOnce c) :: v :: field (globals s) "vim" :: stack s)
            (globals s) (string_lib s)
            (reg_set (next_ref s) (VFun (FOnce c)) (snd (ref_slot (registry s))))
            (trace s ++ firstn 6 (schedule_protocol c s))
            (messages s) (queue s) (invoked s)).
  split; [|repeat split].
  unfold schedule_protocol, next_ref. rewrite Hv.
  unfold schedule, with_state, once_to_luaref, lua_getglobal, lua_getfield,
    lua_rawgeti, lua_call, lua_pop, luaL_ref, luaL_unref, push, log,
    push_results, schedule_tail, lua_pop, luaL_unref.
  unfold bind, modify, get, put, ret; cbn -[ref_slot].
  unfold schedule_field in Hv.
  destruct (field (globals s) "vim") as [|n|str|fs|f]; try discriminate;
    injection Hv as <-; cbn -[ref_slot];
    destruct (ref_slot (registry s)) as [r rg]; cbn;
    rewrite ?Z.eqb_refl; cbn; rewrite <- !app_assoc; cbn;
    destruct (call_value _ _ _); try destruct (0 <=? r)%Z; reflexivity.
Qed.

Lemma schedule_tail_facts (r : Z) (s' : lua_State) :
  let s2 := schedule_tail r s' in
  stack s2 = skipn 3 (stack s') /\
  trace s2 =
    trace s' ++ [EvPop 1 (firstn 1 (skipn 2 (stack s')));
                 EvUnref LUA_REGISTRYINDEX r] /\
  registry s2 =
    (if (0 <=? r)%Z
     then reg_set FREELIST_REF (VNum r)
            (reg_set r (reg_value FREELIST_REF (registry s')) (registry s'))
     else registry s') /\
  globals s2 = globals s' /\ string_lib s2 = string_lib s' /\
  messages s2 = messages s' /\ queue s2 = queue s' /\ invoked s2 = invoked s'.
Proof.
  unfold schedule_tail, push_results, lua_pop, luaL_unref, log.
  unfold bind, modify, get, put, ret; cbn.
  rewrite <- app_assoc.
  destruct (0 <=? r)%Z; cbn;
    (split; [destruct (stack s') as [|? [|? [|? ?]]]; reflexivity|]);
    repeat split.
Qed.

(** [schedule] when indexing [vim] raises: nothing after the lookup runs. *)
Lemma schedule_no_index (c : nat) (s : lua_State) :
  schedule_field s = None ->
  schedule c s =
    Raised (VStr ("attempt to index a " ++ typename (field (globals s) "vim")
                  ++ " value"))
      (with_trace (trace s ++ [EvGetGlobal "vim" (field (globals s) "vim")])
         (with_stack (field (globals s) "vim" :: stack s) s)).
Proof.
  unfold schedule_field; intros Hv.
  unfold schedule, with_state, lua_getglobal, lua_getfield, push, log.
  unfold bind, modify, get, put, ret; cbn.
  destruct (field (globals s) "vim"); try discriminate; reflexivity.
Qed.

Lemma schedule_field_cases (s : lua_State) :
  (exists v, schedule_field s = Some v) \/ schedule_field s = None.
Proof. destruct (schedule_field s); eauto. Qed.

(** After [luaL_unref] of a positive key, the key heads the free list, so
    the next [luaL_ref] hands it out again. *)
Lemma next_ref_freelist (r : Z) (s : lua_State) :
  (0 < r)%Z ->
  reg_value FREELIST_REF (registry s) = VNum r -> next_ref s = r.
Proof.
  intros Hr H. unfold next_ref, ref_slot. rewrite H. cbn.
  destruct (Z.eqb_spec r 0); [lia|reflexivity].
Qed.

(** With the host's [vim.schedule], [schedule] returns with the closure
    queued and not run, the stack as before, and the handle released to the
    head of the free list. *)
Lemma schedule_host (c : nat) (s : lua_State) :
  schedule_field s = Some (VFun FSchedule) ->
  exists s',
    schedule c s = Done tt s' /\
    stack s' = stack s /\
    trace s' = trace s ++ schedule_protocol c s /\
    queue s' = queue s ++ [VFun (FOnce c)] /\ invoked s' = invoked s /\
    globals s' = globals s /\ string_lib s' = string_lib s /\
    messages s' = messages s /\
    ((0 <= next_ref s)%Z ->
       reg_value FREELIST_REF (registry s') = VNum (next_ref s)).
Proof.
  intros Hv.
  destruct (schedule_call c s _ Hv)
    as (st & -> & Hs & Ht & Hr & Hg & Hsl & Hm & Hq & Hi).
  cbn.
  match goal with |- context [schedule_tail ?r ?x] =>
    destruct (schedule_tail_facts r x)
      as (Hs2 & Ht2 & Hr2 & Hg2 & Hsl2 & Hm2 & Hq2 & Hi2) end.
  eexists; split; [reflexivity|].
  rewrite Hs2, Ht2, Hr2, Hg2, Hsl2, Hm2, Hq2, Hi2; cbn.
  rewrite Hs, Ht, Hg, Hsl, Hm, Hq, Hi.
  split; [reflexivity|]. split.
  { unfold schedule_protocol; rewrite Hv; cbn. rewrite <- app_assoc.
    reflexivity. }
  repeat split.
  intros Hpos. apply Z.leb_le in Hpos. rewrite Hpos. reflexivity.
Qed.

(** ** Claims about [print] *)

(** C3: for a text containing a nul byte, [print] returns the
    [InvalidArgument] error and leaves the interpreter state untouched: no
    global lookup, no push and no call are logged, the stack is unchanged. *)
Theorem print_nul_rejected_before_interpreter (t : string) (s : lua_State) :
  has_nul t ->
  exists e, print t s = Done (Err (InvalidArgument e)) s.
Proof. apply print_nul. Qed.

(** C4: for a text with no nul byte and the host's [print] global, [print]
    returns [Ok]; it pushes the global, pushes the text, calls with one
    argument and no results, in that order and nothing else; the message
    is emitted and the stack is as before. *)
Theorem print_valid_text_protocol (t : string) (s : lua_State) :
  ~ has_nul t ->
  field (globals s) "print" = VFun FPrint ->
  exists s',
    print t s = Done (Ok tt) s' /\
    stack s' = stack s /\
    trace s' = trace s ++ print_protocol t (VFun FPrint) /\
    messages s' = messages s ++ [t] /\
    registry s' = registry s /\ queue s' = queue s /\ invoked s' = invoked s.
Proof.
  intros Hnul Hp.
  destruct (print_host t s Hnul Hp) as (s' & E & Hs & Ht & Hm & Hr & Hq & Hi & _).
  exists s'. repeat split; assumption.
Qed.

(** The concrete scenario of the spec: ["Hello Mars!"]. *)
Example print_hello_mars :
  print "Hello Mars!" s_host =
  Done (Ok tt)
    (with_messages ["Hello Mars!"]
       (with_trace (print_protocol "Hello Mars!" (VFun FPrint)) s_host)).
Proof. reflexivity. Qed.

(** C8: two [print] calls with the same valid text are independent: each
    returns [Ok], each appends the same interactions to the log and one
    message, and each leaves the stack as it found it; the second call's
    effect does not depend on the first. *)
Theorem print_twice_independent (t : string) (s : lua_State) :
  ~ has_nul t ->
  field (globals s) "print" = VFun FPrint ->
  exists s1 s2,
    print t s = Done (Ok tt) s1 /\
    print t s1 = Done (Ok tt) s2 /\
    stack s1 = stack s /\ stack s2 = stack s1 /\
    trace s1 = trace s ++ print_protocol t (VFun FPrint) /\
    trace s2 = trace s1 ++ print_protocol t (VFun FPrint) /\
    messages s1 = messages s ++ [t] /\ messages s2 = messages s1 ++ [t].
Proof.
  intros Hnul Hp.
  destruct (print_host t s Hnul Hp)
    as (s1 & E1 & Hst1 & Htr1 & Hm1 & _ & _ & _ & Hg1).
  assert (Hp1 : field (globals s1) "print" = VFun FPrint) by (rewrite Hg1; exact Hp).
  destruct (print_host t s1 Hnul Hp1)
    as (s2 & E2 & Hst2 & Htr2 & Hm2 & _).
  exists s1, s2. repeat split; assumption.
Qed.

(** C9: the [nprint!] macro drops the [Result] of [print]: on a text with a
    nul byte it returns normally and changes nothing, and with the host's
    [print] global it returns normally on every text. *)
Theorem nprint_discards_result (t : string) (s : lua_State) :
  (has_nul t -> nprint t s = Done tt s) /\
  (field (globals s) "print" = VFun FPrint -> exists s', nprint t s = Done tt s').
Proof.
  split.
  - intros H. destruct (print_nul t s H) as [e E].
    unfold nprint, bind. rewrite E. reflexivity.
  - intros Hp. destruct (find_nul t) as [i|] eqn:E.
    + exists s. unfold nprint, bind, print, cstring_new. rewrite E. reflexivity.
    + apply find_nul_none_iff in E.
      destruct (print_host t s E Hp) as (s' & E' & _).
      exists s'. unfold nprint, bind. rewrite E'. reflexivity.
Qed.

(** C10: [CString::new] fails exactly on the texts with a 0x00 byte at any
    position, the last one included; [print] then returns the error, and on
    every other text it reaches the interpreter, starting with the lookup
    of the global [print]. *)
Theorem print_nul_anywhere (t : string) (s : lua_State) :
  (has_nul t <-> exists e, cstring_new t = Err e) /\
  (has_nul t -> exists e, print t s = Done (Err (InvalidArgument e)) s) /\
  (~ has_nul t -> exists rest,
      trace (final_state (print t s)) =
      trace s ++ EvGetGlobal "print" (field (globals s) "print") :: rest).
Proof.
  split; [|split].
  - unfold cstring_new. split.
    + intros H. destruct (find_nul t) as [i|] eqn:E; [eexists; reflexivity|].
      exfalso; exact (find_nul_none t E H).
    + intros [e He]. destruct (find_nul t) as [i|] eqn:E; [|discriminate].
      exact (find_nul_some t i E).
  - apply print_nul.
  - intros H. pose proof (print_call t s H) as Hc; cbv zeta in Hc.
    destruct Hc as (st & -> & _ & Ht & _).
    pose proof (call_value_frame (field (globals s) "print") [VStr t] st)
      as (Htc & _).
    destruct (call_value _ _ _); cbn in *; rewrite Htc, Ht; eexists;
      reflexivity.
Qed.

(** ** Claims about [schedule] *)

(** Splits [schedule c s] at the deferral call: the lookup of
    [vim.schedule] raises, or the callee [v] runs in [st] and returns or
    raises. *)
Ltac schedule_cases c s :=
  let v := fresh "v" in let Hv := fresh "Hv" in
  destruct (schedule_field_cases s) as [[v Hv]|Hv];
  [ let st := fresh "st" in
    destruct (schedule_call c s v Hv)
      as (st & -> & ?Hs & ?Ht & ?Hr & ?Hg & ?Hsl & ?Hm & ?Hq & ?Hi);
    pose proof (call_value_frame v [VFun (FOnce c)] st)
      as (?Htc & ?Hsc & ?Hgc & ?Hslc & ?Hrc);
    destruct (call_value v [VFun (FOnce c)] st) as [?x ?s0|?e0 ?s0] eqn:?Ec;
    cbn in *
  | rewrite (schedule_no_index c s Hv) ].

(** C5: registering the closure does not run it, and with the host's
    [vim.schedule] in place [schedule] returns with the closure queued on
    the event loop but not run; the only call the bridge makes is to
    [vim.schedule]. *)
Theorem schedule_does_not_run_closure (c : nat) :
  (forall s, exists r s', once_to_luaref c s = Done r s' /\
     invoked s' = invoked s /\ queue s' = queue s) /\
  (forall s fs,
     field (globals s) "vim" = VTable fs ->
     field fs "schedule" = VFun FSchedule ->
     exists s', schedule c s = Done tt s' /\
       invoked s' = invoked s /\
       queue s' = queue s ++ [VFun (FOnce c)] /\
       trace s' = trace s ++ schedule_protocol c s).
Proof.
  split.
  - intros s. unfold once_to_luaref, luaL_ref, push, log.
    unfold bind, modify, get, put, ret; cbn -[ref_slot].
    destruct (ref_slot (registry s)) as [r rg]; cbn.
    do 2 eexists; split; [reflexivity|split; reflexivity].
  - intros s fs Hv Hsch.
    assert (Hf : schedule_field s = Some (VFun FSchedule))
      by (unfold schedule_field; rewrite Hv, Hsch; reflexivity).
    destruct (schedule_host c s Hf) as (s' & E & _ & Ht & Hq & Hi & _).
    exists s'. repeat split; assumption.
Qed.

(** C6: [schedule] pushes [vim], then [vim.schedule], then the reference to
    the registered closure; the call consumes the function and the
    reference, and afterwards the [vim] value is popped before the handle
    is released.  When [schedule] returns, its log is exactly this protocol
    and the stack is as before; when it raises, its log is a prefix of the
    protocol that stops at or before the call. *)
Theorem schedule_stack_protocol (c : nat) (s : lua_State) :
  (forall s', schedule c s = Done tt s' ->
     trace s' = trace s ++ schedule_protocol c s /\ stack s' = stack s) /\
  (forall e s', schedule c s = Raised e s' ->
     exists k, k <= 6 /\ trace s' = trace s ++ firstn k (schedule_protocol c s)).
Proof.
  schedule_cases c s.
  - split; intros; try discriminate.
    injection H as <-.
    destruct (schedule_tail_facts (next_ref s) s0) as (Hs2 & Ht2 & _).
    rewrite Hs2, Ht2, Htc, Hsc, Ht, Hs.
    unfold schedule_protocol; rewrite ?Hv; cbn.
    rewrite <- app_assoc. split; reflexivity.
  - split; intros; try discriminate.
    injection H as <- <-. exists 6. split; [lia|]. rewrite Htc, Ht.
    reflexivity.
  - split; intros; try discriminate.
    injection H as <- <-. exists 1. split; [lia|]. reflexivity.
Qed.

(** C1, counterexample: with a [vim] table that has no [schedule] field the
    deferral call raises; the handle registered under key 1 is never
    released and the closure stays in the registry. *)
Lemma schedule_missing_defer_keeps_handle :
  next_ref s_no_schedule = 1%Z /\
  unref_count 1 (trace (final_state (schedule 0 s_no_schedule))) = 0 /\
  reg_value 1 (registry (final_state (schedule 0 s_no_schedule))) =
    VFun (FOnce 0).
Proof. vm_compute. repeat split. Qed.

(** C1, amended: [schedule] registers the closure under [r = next_ref s].
    When the deferral call returns, [schedule] releases [r] exactly once:
    [r] is put at the head of the registry's free list, so the next
    registration reuses it.  When the deferral call raises, the release is
    skipped: [schedule] logs no release of [r], and the closure is still
    registered under [r].  When the lookup of [vim.schedule] raises, nothing
    was registered and the registry is unchanged. *)
Theorem schedule_releases_handle_when_call_returns (c : nat) (s : lua_State) :
  (0 < next_ref s)%Z ->
  (forall s', schedule c s = Done tt s' ->
     exists new, trace s' = trace s ++ new /\
       unref_count (next_ref s) new = 1 /\
       reg_value FREELIST_REF (registry s') = VNum (next_ref s) /\
       next_ref s' = next_ref s) /\
  (forall e s', schedule c s = Raised e s' ->
     exists new, trace s' = trace s ++ new /\
       unref_count (next_ref s) new = 0 /\
       ((new = firstn 1 (schedule_protocol c s) /\ registry s' = registry s) \/
        (new = firstn 6 (schedule_protocol c s) /\
         reg_value (next_ref s) (registry s') = VFun (FOnce c)))).
Proof.
  intros Hpos. schedule_cases c s.
  - split; intros; try discriminate.
    injection H as <-.
    destruct (schedule_tail_facts (next_ref s) s0) as (_ & Ht2 & Hr2 & _).
    assert (H0 : reg_value FREELIST_REF (registry (schedule_tail (next_ref s) s0))
                 = VNum (next_ref s)).
    { rewrite Hr2. destruct (Z.leb_spec 0 (next_ref s)); [reflexivity|lia]. }
    eexists; split; [rewrite Ht2, Htc, Ht, <- app_assoc; reflexivity|].
    split; [|split; [exact H0|apply next_ref_freelist; assumption]].
    unfold schedule_protocol; cbn. rewrite Z.eqb_refl. reflexivity.
  - split; intros; try discriminate.
    injection H as <- <-.
    eexists; split; [rewrite Htc, Ht; reflexivity|].
    split; [unfold schedule_protocol; reflexivity|].
    right. split; [reflexivity|].
    rewrite Hrc, Hr; cbn. rewrite Z.eqb_refl. reflexivity.
  - split; intros; try discriminate.
    injection H as <- <-. cbn.
    eexists; split; [reflexivity|].
    split; [reflexivity|]. left; split; reflexivity.
Qed.





(** ** Witnesses *)

(** A text whose only nul byte is its last byte. *)
Definition nul_last : string := "ab" ++ String zero EmptyString.

Lemma print_nul_rejected_before_interpreter_witness :
  has_nul nul_last /\
  exists e, print nul_last s_host = Done (Err (InvalidArgument e)) s_host.
Proof.
  split; [unfold has_nul; cbn; right; right; left; reflexivity|].
  apply print_nul_rejected_before_interpreter.
  unfold has_nul; cbn; right; right; left; reflexivity.
Defined.

Lemma print_valid_text_protocol_witness :
  ~ has_nul "Hello Mars!" /\
  exists s',
    print "Hello Mars!" s_host = Done (Ok tt) s' /\
    stack s' = stack s_host /\
    trace s' = trace s_host ++ print_protocol "Hello Mars!" (VFun FPrint) /\
    messages s' = messages s_host ++ ["Hello Mars!"] /\
    registry s' = registry s_host /\ queue s' = queue s_host /\
    invoked s' = invoked s_host.
Proof.
  split; [apply find_nul_none_iff; reflexivity|].
  apply print_valid_text_protocol; [apply find_nul_none_iff|]; reflexivity.
Defined.

Lemma print_twice_independent_witness :
  exists s1 s2,
    print "Hello Mars!" s_host = Done (Ok tt) s1 /\
    print "Hello Mars!" s1 = Done (Ok tt) s2 /\
    stack s1 = stack s_host /\ stack s2 = stack s1 /\
    trace s1 = trace s_host ++ print_protocol "Hello Mars!" (VFun FPrint) /\
    trace s2 = trace s1 ++ print_protocol "Hello Mars!" (VFun FPrint) /\
    messages s1 = messages s_host ++ ["Hello Mars!"] /\
    messages s2 = messages s1 ++ ["Hello Mars!"].
Proof.
  apply print_twice_independent; [apply find_nul_none_iff|]; reflexivity.
Defined.

Lemma nprint_discards_result_witness :
  nprint nul_last s_host = Done tt s_host /\
  exists s', nprint "Hello Mars!" s_host = Done tt s'.
Proof.
  split.
  - apply (proj1 (nprint_discards_result nul_last s_host)).
    unfold has_nul; cbn; right; right; left; reflexivity.
  - apply (proj2 (nprint_discards_result "Hello Mars!" s_host)).
    reflexivity.
Defined.

Lemma print_nul_anywhere_witness :
  (exists e, cstring_new nul_last = Err e) /\
  (exists e, print nul_last s_host = Done (Err (InvalidArgument e)) s_host) /\
  (exists rest,
      trace (final_state (print "Hello Mars!" s_host)) =
      trace s_host ++ EvGetGlobal "print" (field (globals s_host) "print")
                       :: rest).
Proof.
  assert (H : has_nul nul_last)
    by (unfold has_nul; cbn; right; right; left; reflexivity).
  split; [|split].
  - apply (proj1 (proj1 (print_nul_anywhere nul_last s_host))). exact H.
  - apply (proj1 (proj2 (print_nul_anywhere nul_last s_host))). exact H.
  - apply (proj2 (proj2 (print_nul_anywhere "Hello Mars!" s_host))).
    apply find_nul_none_iff; reflexivity.
Defined.

Lemma schedule_does_not_run_closure_witness :
  exists s', schedule 0 s_host = Done tt s' /\
    invoked s' = invoked s_host /\
    queue s' = queue s_host ++ [VFun (FOnce 0)] /\
    trace s' = trace s_host ++ schedule_protocol 0 s_host.
Proof.
  refine (proj2 (schedule_does_not_run_closure 0) s_host
            [("schedule", VFun FSchedule)] _ _); reflexivity.
Defined.

Lemma schedule_stack_protocol_witness :
  schedule 0 s_host = Done tt (final_state (schedule 0 s_host)) /\
  trace (final_state (schedule 0 s_host)) =
    trace s_host ++ schedule_protocol 0 s_host /\
  stack (final_state (schedule 0 s_host)) = stack s_host.
Proof.
  split; [vm_compute; reflexivity|].
  refine (proj1 (schedule_stack_protocol 0 s_host)
            (final_state (schedule 0 s_host)) _).
  vm_compute; reflexivity.
Defined.

Lemma schedule_releases_handle_when_call_returns_witness :
  (0 < next_ref s_host)%Z /\
  schedule 0 s_host = Done tt (final_state (schedule 0 s_host)) /\
  exists new, trace (final_state (schedule 0 s_host)) = trace s_host ++ new /\
    unref_count (next_ref s_host) new = 1 /\
    reg_value FREELIST_REF (registry (final_state (schedule 0 s_host))) =
      VNum (next_ref s_host) /\
    next_ref (final_state (schedule 0 s_host)) = next_ref s_host.
Proof.
  split; [vm_compute; reflexivity|].
  split; [vm_compute; reflexivity|].
  refine (proj1 (schedule_releases_handle_when_call_returns 0 s_host _)
            (final_state (schedule 0 s_host)) _);
    vm_compute; reflexivity.
Defined.



(** ** Further properties of [print] and [schedule] *)

Lemma schedule_field_same (s s' : lua_State) :
  globals s' = globals s -> string_lib s' = string_lib s ->
  schedule_field s' = schedule_field s.
Proof. intros Hg Hsl. unfold schedule_field. rewrite Hg, Hsl. reflexivity. Qed.

(** X1: the [Result] of [print] is an error exactly when the text holds a
    nul byte; a Lua error from the call is never turned into it. *)
Theorem print_err_iff_nul (t : string) (s : lua_State) :
  (exists e s', print t s = Done (Err e) s') <-> has_nul t.
Proof.
  split.
  - intros (e & s' & H). destruct (find_nul t) as [i|] eqn:E.
    + exact (find_nul_some t i E).
    + apply find_nul_none_iff in E.
      pose proof (print_call t s E) as Hc; cbv zeta in Hc.
      destruct Hc as (st & E' & _). rewrite E' in H.
      destruct (call_value _ _ _); discriminate.
  - intros H. destruct (print_nul t s H) as [e E]. exists (InvalidArgument e), s.
    exact E.
Qed.



(** X3: two [schedule] calls in a row with the host's [vim.schedule] both
    return, queue the two closures in call order without running them, and
    the second registration reuses the handle the first one released. *)
Theorem schedule_twice_reuses_handle (c1 c2 : nat) (s : lua_State) :
  schedule_field s = Some (VFun FSchedule) ->
  (0 < next_ref s)%Z ->
  exists s1 s2,
    schedule c1 s = Done tt s1 /\ schedule c2 s1 = Done tt s2 /\
    next_ref s1 = next_ref s /\
    trace s2 = trace s ++ schedule_protocol c1 s ++ schedule_protocol c2 s1 /\
    queue s2 = queue s ++ [VFun (FOnce c1); VFun (FOnce c2)] /\
    invoked s2 = invoked s /\ stack s2 = stack s.
Proof.
  intros Hf Hpos.
  destruct (schedule_host c1 s Hf)
    as (s1 & E1 & Hs1 & Ht1 & Hq1 & Hi1 & Hg1 & Hsl1 & _ & Hr1).
  assert (Hf1 : schedule_field s1 = Some (VFun FSchedule))
    by (rewrite (schedule_field_same s s1 Hg1 Hsl1); exact Hf).
  destruct (schedule_host c2 s1 Hf1)
    as (s2 & E2 & Hs2 & Ht2 & Hq2 & Hi2 & _).
  exists s1, s2. split; [exact E1|split; [exact E2|]].
  split; [apply next_ref_freelist; [exact Hpos|apply Hr1; lia]|].
  rewrite Ht2, Ht1, Hq2, Hq1, Hi2, Hi1, Hs2, Hs1, <- !app_assoc.
  repeat split.
Qed.

Lemma schedule_twice_reuses_handle_witness :
  exists s1 s2,
    schedule 0 s_host = Done tt s1 /\ schedule 1 s1 = Done tt s2 /\
    next_ref s1 = next_ref s_host /\
    trace s2 = trace s_host ++ schedule_protocol 0 s_host ++
               schedule_protocol 1 s1 /\
    queue s2 = queue s_host ++ [VFun (FOnce 0); VFun (FOnce 1)] /\
    invoked s2 = invoked s_host /\ stack s2 = stack s_host.
Proof.
  apply schedule_twice_reuses_handle; vm_compute; reflexivity.
Defined.
